(** * wakeup.py: a presence keep-alive script and its exit flag

    The script registers a keyboard hook, then loops: print the time, run a
    UI-automation routine, sleep.  A callback run by the keyboard library's
    listener thread sets the module global [q_pressed]; the loop tests that
    global before every iteration.

    The development embeds the three functions of [src/wakeup/wakeup.py] as
    programs over the calls they make into [pyautogui], [time], [keyboard],
    [win32gui], [datetime] and [print], runs them on a two-thread machine
    (main thread and listener thread) driven by a schedule, and proves the
    properties the specification states about them. *)

From Stdlib Require Import ZArith.
From stdpp Require Import gmap strings list fin_maps.

Open Scope string_scope.
Open Scope list_scope.

(** ** Values and external calls *)

(** A key event as the [keyboard] library hands it to a callback. *)
Inductive event_type := KEY_DOWN | KEY_UP.

Record KeyboardEvent := {
  ev_type : event_type;
  ev_name : string;
  ev_scan_code : Z
}.

(** The Python values the script handles. *)
Inductive value :=
| VNone
| VBool (b : bool)
| VInt (n : Z)
| VStr (s : string)
| VFunc (name : string)          (* a module-level function object *)
| VEvent (e : KeyboardEvent)
| VObj (id : Z).                 (* an opaque object: a datetime, ... *)

(** Python truthiness, as [while not q_pressed] applies it. *)
Definition truthy (v : value) : bool :=
  match v with
  | VNone => false
  | VBool b => b
  | VInt n => negb (n =? 0)%Z
  | VStr s => negb (String.eqb s "")
  | VFunc _ | VEvent _ | VObj _ => true
  end.

(** The library functions named in the script, the commented-out block
    (lines 21-33) included. *)
Inductive call :=
| pyautogui_press (key : string)
| pyautogui_typewrite (text : string)
| pyautogui_moveTo (x y : Z)
| pyautogui_click
| time_sleep (secs : Z)
| win32gui_FindWindow (class_name : value) (title : string)
| win32gui_SetForegroundWindow (hwnd : value)
| datetime_now
| strftime (dt : value) (fmt : string)
| keyboard_on_press_key (key : string) (callback : value)
| print (args : list value).

Inductive exn := Exception (name : string).

(** What the environment answers to a call. *)
Inductive response :=
| Ret (v : value)
| Raise (e : exn).

(** ** Programs *)

(** A function body: the calls it makes in order, each continuation
    receiving the value the call returned.  The script has no [try], so
    there is no handler construct; no statement of the script needs one. *)
Inductive prog :=
| Return                                              (* fall off the end: return None *)
| Do (c : call) (k : value -> prog)                   (* x = c ; k x *)
| StoreGlobal (x : string) (v : value) (k : prog)     (* global x; x = v *)
| WhileNotGlobal (x : string) (body : prog) (k : prog). (* while not x: body *)

(** [seq p q]: the statements of [p], then those of [q]. *)
Fixpoint seq (p q : prog) : prog :=
  match p with
  | Return => q
  | Do c k => Do c (fun v => seq (k v) q)
  | StoreGlobal x v k => StoreGlobal x v (seq k q)
  | WhileNotGlobal x body k => WhileNotGlobal x body (seq k q)
  end.

Declare Scope prog_scope.
Delimit Scope prog_scope with prog.
Notation "x <- c ;; p" := (Do c (fun x => p))
  (at level 100, c at next level, right associativity) : prog_scope.
Notation "c ;; p" := (Do c (fun _ => p))
  (at level 100, right associativity) : prog_scope.
Notation "'call_fn' f ;; p" := (seq f p)
  (at level 100, f at next level, right associativity) : prog_scope.

Open Scope prog_scope.

(** ** The script *)

(** Lines 10-33.  Lines 21-33 are comments in the source: the body ends with
    the assignment to the local [teams_window], which nothing reads. *)
Definition set_status_available : prog :=
  pyautogui_press "win" ;;
  time_sleep 1 ;;
  pyautogui_typewrite "Teams" ;;
  time_sleep 1 ;;
  pyautogui_press "enter" ;;
  time_sleep 2 ;;
  teams_window <- win32gui_FindWindow VNone "Microsoft Teams" ;;
  Return.

(** Line 35: the module's only global variable and its initial value. *)
Definition initial_globals : gmap string value :=
  {[ "q_pressed" := VBool false ]}.

(** Lines 37-40. *)
Definition check_q_press (event : value) : prog :=
  StoreGlobal "q_pressed" (VBool true) (
  print [event; VStr "q pressed. Exiting, wait for a while..."] ;;
  Return).

(** Lines 49-52: the body of the loop. *)
Definition loop_body : prog :=
  now <- datetime_now ;;
  current_time <- strftime now "%H:%M" ;;
  print [current_time; VStr "- activating status."] ;;
  call_fn set_status_available ;;
  time_sleep 300 ;;
  Return.

(** Line 54. *)
Definition after_loop : prog :=
  print [VStr "Exiting..."] ;;
  Return.

(** Lines 48-54. *)
Definition main_loop : prog :=
  WhileNotGlobal "q_pressed" loop_body after_loop.

(** Lines 42-54. *)
Definition main : prog :=
  keyboard_on_press_key "q" (VFunc "check_q_press") ;;
  main_loop.

(** The module's function objects that take one argument, by name; the
    keyboard library calls a hooked callback as [callback(event)]. *)
Definition lookup_func (name : string) : option (value -> prog) :=
  if String.eqb name "check_q_press" then Some check_q_press else None.

(** ** The machine: main thread, listener thread, schedule *)

Inductive thread :=
| Running (p : prog)
| Returned                       (* the function returned None *)
| Raised (e : exn).              (* an exception left the function *)

(** What one step of a thread does, as the log records it. *)
Inductive obs :=
| Called (c : call)                      (* the call was made and returned *)
| Threw (c : call) (e : exn)             (* the call was made and raised [e] *)
| Stored (x : string) (v : value)
| LoopTest (x : string) (enter : bool)   (* [while not x]: enter the body, or leave *)
| NameError (x : string)
| Returns.

(** One step of a function body over the module globals [g]; [r] is the
    environment's answer when the step is a call. *)
Definition step_prog (g : gmap string value) (r : response) (p : prog)
  : gmap string value * obs * thread :=
  match p with
  | Return => (g, Returns, Returned)
  | Do c k =>
      match r with
      | Ret v => (g, Called c, Running (k v))
      | Raise e => (g, Threw c e, Raised e)
      end
  | StoreGlobal x v k => (<[x := v]> g, Stored x v, Running k)
  | WhileNotGlobal x body k =>
      match g !! x with
      | None => (g, NameError x, Raised (Exception "NameError"))
      | Some v =>
          if truthy v then (g, LoopTest x false, Running k)
          else (g, LoopTest x true, Running (seq body (WhileNotGlobal x body k)))
      end
  end.

Inductive tid := Main | Listener.

Record config := {
  globals : gmap string value;       (* the module's global variables *)
  hooks : list (string * value);     (* keyboard's table: key name, callback *)
  main_thread : thread;
  pending : list prog;               (* callbacks queued on the listener thread *)
  log : list (tid * obs)             (* every step taken, oldest first *)
}.

(** [keyboard.on_press_key(key, callback)], once it returns, has entered the
    pair in the library's table; no other call touches the table. *)
Definition register (o : obs) (hs : list (string * value)) : list (string * value) :=
  match o with
  | Called (keyboard_on_press_key key cb) => hs ++ [(key, cb)]
  | _ => hs
  end.

(** The library invokes the callbacks hooked on the key of a key-down event.
    The library is not part of the script: the model tells the key of an
    event by the name the event carries, which stands for the library's own
    matching of events to hooked keys. *)
Definition dispatch (hs : list (string * value)) (e : KeyboardEvent) : list prog :=
  flat_map (fun h : string * value =>
    match ev_type e, h.2 with
    | KEY_DOWN, VFunc f =>
        if String.eqb h.1 (ev_name e) then
          match lookup_func f with
          | Some body => [body (VEvent e)]
          | None => []
          end
        else []
    | _, _ => []
    end) hs.

(** What the environment does next.  A callback that raised leaves the
    listener's queue; what the library's listener does after that is up to
    the schedule, which may give it further steps or none. *)
Inductive input :=
| MainStep (r : response)        (* the main thread takes a step *)
| ListenerStep (r : response)    (* the listener thread takes a step *)
| KeyEvent (e : KeyboardEvent).  (* the user hits or releases a key *)

Definition step (i : input) (c : config) : config :=
  match i with
  | MainStep r =>
      match main_thread c with
      | Running p =>
          let '(g, o, t) := step_prog (globals c) r p in
          {| globals := g; hooks := register o (hooks c); main_thread := t;
             pending := pending c; log := log c ++ [(Main, o)] |}
      | _ => c
      end
  | ListenerStep r =>
      match pending c with
      | [] => c
      | p :: rest =>
          let '(g, o, t) := step_prog (globals c) r p in
          {| globals := g; hooks := register o (hooks c);
             main_thread := main_thread c;
             pending := match t with Running p' => p' :: rest | _ => rest end;
             log := log c ++ [(Listener, o)] |}
      end
  | KeyEvent e =>
      {| globals := globals c; hooks := hooks c; main_thread := main_thread c;
         pending := pending c ++ dispatch (hooks c) e; log := log c |}
  end.

(** A schedule is run from left to right. *)
Definition run (sched : list input) (c : config) : config :=
  foldl (fun c i => step i c) c sched.

(** [python wakeup.py]: line 35 has run, [main()] is about to. *)
Definition initial : config :=
  {| globals := initial_globals; hooks := []; main_thread := Running main;
     pending := []; log := [] |}.

(** A function called on its own, over globals [g]. *)
Definition calling (f : prog) (g : gmap string value) : config :=
  {| globals := g; hooks := []; main_thread := Running f;
     pending := []; log := [] |}.

(** ** Reading a configuration *)

Definition q_pressed (c : config) : bool :=
  match globals c !! "q_pressed" with
  | Some v => truthy v
  | None => false
  end.

(** The steps of one thread, in order. *)
Definition obs_of (t : tid) (l : list (tid * obs)) : list obs :=
  omap (fun x : tid * obs =>
    match t, x.1 with
    | Main, Main | Listener, Listener => Some x.2
    | _, _ => None
    end) l.

Definition main_obs (c : config) : list obs := obs_of Main (log c).

(** The calls attempted, whether they returned or raised. *)
Definition calls_made (l : list obs) : list call :=
  omap (fun o => match o with
                 | Called c | Threw c _ => Some c
                 | _ => None
                 end) l.

(** How often the loop body was entered. *)
Definition is_loop_entry (o : obs) : bool :=
  match o with
  | LoopTest _ true => true
  | _ => false
  end.

Definition loop_entries (l : list obs) : nat :=
  length (List.filter is_loop_entry l).

(** The seconds of sleep requested since the last test of the loop
    condition, oldest first. *)
Definition sleeps_since_test (l : list obs) : list Z :=
  foldl (fun acc o =>
    match o with
    | LoopTest _ _ => []
    | Called (time_sleep secs) => acc ++ [secs]
    | _ => acc
    end) [] l.

Definition total (l : list Z) : Z := foldr Z.add 0%Z l.

(** Schedules: the steps given to the main thread, and whether every call
    of the main thread returns. *)
Definition is_main_step (i : input) : bool :=
  match i with
  | MainStep _ => true
  | _ => false
  end.

Definition main_steps (sched : list input) : nat :=
  length (List.filter is_main_step sched).

Definition is_raise (i : input) : bool :=
  match i with
  | MainStep (Raise _) => true
  | _ => false
  end.

Definition main_returns (sched : list input) : bool :=
  forallb (fun i => negb (is_raise i)) sched.

(** ** Expected traces *)

Definition set_status_available_calls : list call :=
  [ pyautogui_press "win"; time_sleep 1; pyautogui_typewrite "Teams";
    time_sleep 1; pyautogui_press "enter"; time_sleep 2;
    win32gui_FindWindow VNone "Microsoft Teams" ].

Definition registration : obs :=
  Called (keyboard_on_press_key "q" (VFunc "check_q_press")).

(** One full iteration: the test, then lines 49-52. *)
Definition iteration (now current_time : value) : list obs :=
  LoopTest "q_pressed" true ::
  Called datetime_now ::
  Called (strftime now "%H:%M") ::
  Called (print [current_time; VStr "- activating status."]) ::
  map Called set_status_available_calls ++ [Called (time_sleep 300)].

Definition iterations (its : list (value * value)) : list obs :=
  flat_map (fun it : value * value => iteration it.1 it.2) its.

Definition exit_steps : list obs :=
  [ LoopTest "q_pressed" false; Called (print [VStr "Exiting..."]); Returns ].

(** A run of [main] from line 46 to its return. *)
Definition full_run (its : list (value * value)) : list obs :=
  registration :: iterations its ++ exit_steps.

(** ** Where the main thread can be *)

(** The body after the calls made so far returned the values [vs]. *)
Fixpoint advance (vs : list value) (p : prog) : prog :=
  match vs, p with
  | v :: vs', Do c k => advance vs' (k v)
  | _, _ => p
  end.

Fixpoint calls_of (vs : list value) (p : prog) : list obs :=
  match vs, p with
  | v :: vs', Do c k => Called c :: calls_of vs' (k v)
  | _, _ => []
  end.

(** The main thread and what it has logged, position by position. *)
Inductive main_inv : thread -> list obs -> Prop :=
| at_line_46 :
    main_inv (Running main) []
| at_line_48 its :
    main_inv (Running main_loop) (registration :: iterations its)
| in_body its vs :
    length vs < 11 ->
    main_inv (Running (seq (advance vs loop_body) main_loop))
      (registration :: iterations its ++
       LoopTest "q_pressed" true :: calls_of vs loop_body)
| at_line_54 its :
    main_inv (Running after_loop)
      (registration :: iterations its ++ [LoopTest "q_pressed" false])
| at_return its :
    main_inv (Running Return)
      (registration :: iterations its ++
       [LoopTest "q_pressed" false; Called (print [VStr "Exiting..."])])
| has_returned its :
    main_inv Returned (full_run its)
| has_raised l c e its :
    (l ++ [Called c]) `prefix_of` full_run its ->
    main_inv (Raised e) (l ++ [Threw c e]).

(** A callback on the listener thread: not started, or past its store. *)
Definition callback_state (b : bool) (p : prog) : Prop :=
  (exists v, p = check_q_press v) \/
  (b = true /\
   ((exists v, p = Do (print [v; VStr "q pressed. Exiting, wait for a while..."])
                    (fun _ => Return)) \/
    p = Return)).

(** The calls each thread makes, and the one store. *)
Definition main_call (c : call) : Prop :=
  c = keyboard_on_press_key "q" (VFunc "check_q_press") \/
  c = datetime_now \/
  (exists now, c = strftime now "%H:%M") \/
  (exists t, c = print [t; VStr "- activating status."]) \/
  In c set_status_available_calls \/
  c = time_sleep 300 \/
  c = print [VStr "Exiting..."].

Definition listener_call (c : call) : Prop :=
  exists v, c = print [v; VStr "q pressed. Exiting, wait for a while..."].

Definition entry_ok (x : tid * obs) : Prop :=
  match x with
  | (Main, Called c) | (Main, Threw c _) => main_call c
  | (Main, LoopTest x _) => x = "q_pressed"
  | (Main, Returns) => True
  | (Listener, Called c) | (Listener, Threw c _) => listener_call c
  | (Listener, Stored x v) => x = "q_pressed" /\ v = VBool true
  | (Listener, Returns) => True
  | _ => False
  end.

Definition hooks_of (l : list obs) : list (string * value) :=
  match l with
  | Called (keyboard_on_press_key key cb) :: _ => [(key, cb)]
  | _ => []
  end.

(** What holds of every configuration the script reaches. *)
Record Inv (c : config) : Prop := {
  inv_globals : globals c = {[ "q_pressed" := VBool (q_pressed c) ]};
  inv_hooks : hooks c = hooks_of (main_obs c);
  inv_pending : Forall (callback_state (q_pressed c)) (pending c);
  inv_log : Forall entry_ok (log c);
  inv_main : main_inv (main_thread c) (main_obs c)
}.

Definition q_event : KeyboardEvent :=
  {| ev_type := KEY_DOWN; ev_name := "q"; ev_scan_code := 16 |}.

(** ** Measures, frames and sample schedules *)

(** Steps left to the return once every loop test finds the flag set. *)
Fixpoint steps_left (p : prog) : nat :=
  match p with
  | Return => 1
  | Do c k => S (steps_left (k VNone))
  | StoreGlobal _ _ k => S (steps_left k)
  | WhileNotGlobal _ _ k => S (steps_left k)
  end.

Definition thread_left (t : thread) : nat :=
  match t with
  | Running p => steps_left p
  | _ => 0
  end.

Definition q_during_first_iteration : list input :=
  [ MainStep (Ret VNone); MainStep (Ret VNone); KeyEvent q_event;
    ListenerStep (Ret VNone) ].

Definition fourteen_steps : list input := replicate 14 (MainStep (Ret VNone)).

Definition answers (rs : list response) : list input := map MainStep rs.

Definition with_globals (g : gmap string value) (c : config) : config :=
  {| globals := g; hooks := hooks c; main_thread := main_thread c;
     pending := pending c; log := log c |}.

(** Bodies made of calls only: no store to a global, no loop on one. *)
Inductive only_calls : prog -> Prop :=
| only_calls_return : only_calls Return
| only_calls_do c k : (forall v, only_calls (k v)) -> only_calls (Do c k).

Definition status_interaction (c : call) : bool :=
  match c with
  | pyautogui_moveTo _ _ | pyautogui_click | win32gui_SetForegroundWindow _ => true
  | pyautogui_press key => String.eqb key "down"
  | _ => false
  end.

Definition eight_returns : list value :=
  [VNone; VNone; VNone; VNone; VNone; VNone; VInt 197540; VNone].

Definition two_steps : list input := [MainStep (Ret VNone); MainStep (Ret VNone)].

Definition fail_safe : exn := Exception "FailSafeException".

Definition a_event : KeyboardEvent :=
  {| ev_type := KEY_DOWN; ev_name := "a"; ev_scan_code := 30 |}.

(** How a thread stands, leaving aside what it would do next. *)
Inductive outcome := StillRunning | ReturnedNone | RaisedExn (e : exn).

Definition outcome_of (t : thread) : outcome :=
  match t with
  | Running _ => StillRunning
  | Returned => ReturnedNone
  | Raised e => RaisedExn e
  end.

(** A logged step without the first argument of [print]. *)
Definition without_first_arg (o : obs) : obs :=
  match o with
  | Called (print (_ :: args)) => Called (print args)
  | Threw (print (_ :: args)) e => Threw (print args) e
  | _ => o
  end.

Definition thirteen_steps : list input := replicate 13 (MainStep (Ret VNone)).

Definition q_after_registration : list input :=
  [ MainStep (Ret VNone); MainStep (Ret VNone); KeyEvent q_event ].

(** ** Sleep and latency *)

(** The seconds of sleep a step asked for and got. *)
Definition sleep_of (o : obs) : Z :=
  match o with
  | Called (time_sleep secs) => secs
  | _ => 0%Z
  end.

Definition slept (l : list obs) : Z :=
  foldr (fun o acc => (sleep_of o + acc)%Z) 0%Z l.

(** The sleep still ahead once every loop test finds the flag set. *)
Fixpoint sleep_left (p : prog) : Z :=
  match p with
  | Return => 0%Z
  | Do c k => (sleep_of (Called c) + sleep_left (k VNone))%Z
  | StoreGlobal _ _ k => sleep_left k
  | WhileNotGlobal _ _ k => sleep_left k
  end.

Definition thread_sleep_left (t : thread) : Z :=
  match t with
  | Running p => sleep_left p
  | _ => 0%Z
  end.

Definition three_returns : list value := [VNone; VNone; VNone].

(** ** Calls and their answers *)

(** The call a step of the main thread makes, with the answer it gets. *)
Definition io_of_step (i : input) (c : config) : list (call * response) :=
  match i, main_thread c with
  | MainStep r, Running (Do call _) => [(call, r)]
  | _, _ => []
  end.

(** The calls of the main thread along a schedule, each with its answer. *)
Fixpoint main_io (sched : list input) (c : config) : list (call * response) :=
  match sched with
  | [] => []
  | i :: sched' => io_of_step i c ++ main_io sched' (step i c)
  end.

(** The time printed is the time read: every [strftime] formats, with
    "%H:%M", the object the call of [datetime.now] just before it returned;
    every [print] of the main thread is the exit message or prints, before
    '- activating status.', the string the [strftime] just before it
    returned. *)
Definition time_flows (io : list (call * response)) : Prop :=
  forall l c r l',
    io = l ++ (c, r) :: l' ->
    match c with
    | strftime dt fmt =>
        fmt = "%H:%M" /\ exists l0, l = l0 ++ [(datetime_now, Ret dt)]
    | print args =>
        args = [VStr "Exiting..."] \/
        exists l0 now t,
          l = l0 ++ [(datetime_now, Ret now); (strftime now "%H:%M", Ret t)] /\
          args = [t; VStr "- activating status."]
    | _ => True
    end.

(** The calls of a body that got the answers [vs], with these answers. *)
Fixpoint answered (vs : list value) (p : prog) : list (call * response) :=
  match vs, p with
  | v :: vs', Do c k => (c, Ret v) :: answered vs' (k v)
  | _, _ => []
  end.

(** The main thread and the answers its calls got, position by position. *)
Inductive io_inv : thread -> list (call * response) -> Prop :=
| io_halted t io : (forall p, t <> Running p) -> io_inv t io
| io_at_line_46 io : io_inv (Running main) io
| io_at_line_48 io : io_inv (Running main_loop) io
| io_in_body pre vs :
    length vs < 11 ->
    io_inv (Running (seq (advance vs loop_body) main_loop))
      (pre ++ answered vs loop_body)
| io_at_line_54 io : io_inv (Running after_loop) io
| io_at_return io : io_inv (Running Return) io.

Definition five_steps : list input := replicate 5 (MainStep (Ret VNone)).

Definition six_returns : list value := [VNone; VNone; VNone; VNone; VNone; VNone].

Definition os_error : exn := Exception "OSError".

(** ** Basic facts about the machine *)

Lemma run_app sched1 sched2 c :
  run (sched1 ++ sched2) c = run sched2 (run sched1 c).
Proof. unfold run. apply foldl_app. Qed.

Lemma run_snoc sched i c : run (sched ++ [i]) c = step i (run sched c).
Proof. rewrite run_app. reflexivity. Qed.

Lemma run_cons i sched c : run (i :: sched) c = run sched (step i c).
Proof. reflexivity. Qed.

Lemma obs_of_snoc_same t l o : obs_of t (l ++ [(t, o)]) = obs_of t l ++ [o].
Proof. unfold obs_of. rewrite omap_app. destruct t; reflexivity. Qed.

Lemma obs_of_snoc_main_listener l o : obs_of Main (l ++ [(Listener, o)]) = obs_of Main l.
Proof. unfold obs_of. rewrite omap_app. simpl. apply app_nil_r. Qed.

Lemma iterations_snoc its now t :
  iterations (its ++ [(now, t)]) = iterations its ++ iteration now t.
Proof.
  unfold iterations. rewrite flat_map_app. cbn [flat_map fst snd].
  rewrite app_nil_r. reflexivity.
Qed.

Lemma q_pressed_singleton b c :
  globals c = {[ "q_pressed" := VBool b ]} -> q_pressed c = b.
Proof. intros H. unfold q_pressed. rewrite H, lookup_singleton_eq. reflexivity. Qed.

Lemma body_prefix vs :
  length vs < 11 ->
  exists now t,
    (LoopTest "q_pressed" true :: calls_of vs loop_body) `prefix_of` iteration now t.
Proof.
  intros H.
  exists (nth 0 vs VNone), (nth 1 vs VNone).
  do 11 (destruct vs as [|? vs]; [eexists; cbn; reflexivity|]).
  simpl in H. lia.
Qed.

Lemma main_inv_prefix t l :
  main_inv t l -> (forall e, t <> Raised e) ->
  exists its, l `prefix_of` full_run its.
Proof.
  intros H Hne. destruct H as [|its|its vs Hlen|its|its|its|l c e its Hp].
  - exists []. apply prefix_nil.
  - exists its. unfold full_run. eexists. rewrite <- app_comm_cons. reflexivity.
  - destruct (body_prefix vs Hlen) as (now & t & k & Hk).
    exists (its ++ [(now, t)]). unfold full_run.
    rewrite iterations_snoc, Hk. exists (k ++ exit_steps).
    repeat (rewrite <- app_assoc || rewrite <- app_comm_cons). reflexivity.
  - exists its. unfold full_run, exit_steps. eexists.
    rewrite <- !app_comm_cons, <- app_assoc. reflexivity.
  - exists its. unfold full_run, exit_steps. eexists.
    rewrite <- !app_comm_cons, <- app_assoc. reflexivity.
  - exists its. reflexivity.
  - exfalso. exact (Hne e eq_refl).
Qed.

Lemma body_step its vs v b :
  length vs < 11 ->
  exists c t,
    step_prog {[ "q_pressed" := VBool b ]} (Ret v)
      (seq (advance vs loop_body) main_loop)
      = ({[ "q_pressed" := VBool b ]}, Called c, t) /\
    main_inv t ((registration :: iterations its ++
                 LoopTest "q_pressed" true :: calls_of vs loop_body) ++ [Called c]) /\
    main_call c /\
    (forall e, t <> Raised e) /\
    (forall key cb, c <> keyboard_on_press_key key cb).
Proof.
  intros Hlen.
  do 10 (destruct vs as [|? vs];
    [ do 2 eexists; split; [reflexivity|];
      split; [ rewrite <- app_comm_cons, <- app_assoc;
               match goal with
               | |- main_inv _ (_ :: _ ++ (_ :: calls_of ?l _) ++ [_]) =>
                   apply (in_body its (l ++ [v])); simpl; lia
               end |];
      split; [ unfold main_call, set_status_available_calls; simpl; naive_solver |];
      split; discriminate |]).
  destruct vs as [|? vs]; [| simpl in Hlen; lia].
  do 2 eexists; split; [reflexivity|].
  split.
  - match goal with
    | |- main_inv _ ((_ :: _ ++ _ :: calls_of (?a :: ?b :: _) _) ++ _) =>
        replace (Running (seq Return main_loop)) with (Running main_loop) by reflexivity;
        pose proof (at_line_48 (its ++ [(a, b)])) as H
    end.
    rewrite iterations_snoc in H.
    rewrite <- app_comm_cons, <- app_assoc. exact H.
  - split; [ unfold main_call; simpl; naive_solver |]. split; discriminate.
Qed.

Lemma main_step_ret p l b v :
  main_inv (Running p) l ->
  exists o t,
    step_prog {[ "q_pressed" := VBool b ]} (Ret v) p
      = ({[ "q_pressed" := VBool b ]}, o, t) /\
    main_inv t (l ++ [o]) /\
    entry_ok (Main, o) /\
    register o (hooks_of l) = hooks_of (l ++ [o]) /\
    (forall e, t <> Raised e) /\
    (is_loop_entry o = true -> b = false).
Proof.
  intros H. inversion H as [|its|its vs Hlen|its|its| |]; subst; clear H.
  - do 2 eexists. split; [reflexivity|].
    split; [apply (at_line_48 [])|].
    split; [left; reflexivity|]. repeat split; try discriminate.
  - unfold main_loop, step_prog. rewrite lookup_singleton_eq.
    destruct b; cbn [truthy]; do 2 eexists; (split; [reflexivity|]).
    + split; [apply (at_line_54 its)|]. repeat split; try discriminate.
    + split; [apply (in_body its []); simpl; lia|].
      repeat split; try discriminate.
  - destruct (body_step its vs v b Hlen) as (c & t & Hs & Hi & Hc & Hr & Hk).
    exists (Called c), t. split; [exact Hs|]. split; [exact Hi|].
    split; [exact Hc|]. split; [|split; [exact Hr|discriminate]].
    destruct c; try reflexivity. exfalso. eapply Hk. reflexivity.
  - do 2 eexists. split; [reflexivity|].
    split.
    + rewrite <- app_comm_cons, <- app_assoc. apply (at_return its).
    + split; [unfold entry_ok, main_call; naive_solver|].
      repeat split; try discriminate.
  - do 2 eexists. split; [reflexivity|].
    split.
    + rewrite <- app_comm_cons, <- app_assoc. apply (has_returned its).
    + repeat split; try discriminate.
Qed.

Lemma step_prog_raise g e p :
  step_prog g (Raise e) p =
  match p with
  | Do c k => (g, Threw c e, Raised e)
  | _ => step_prog g (Ret VNone) p
  end.
Proof. destruct p; reflexivity. Qed.

Lemma hooks_of_snoc_threw l c e : hooks_of (l ++ [Threw c e]) = hooks_of l.
Proof. destruct l; reflexivity. Qed.

(** One step of the main thread, whatever the environment answers. *)
Lemma main_step p l b r :
  main_inv (Running p) l ->
  exists o t,
    step_prog {[ "q_pressed" := VBool b ]} r p
      = ({[ "q_pressed" := VBool b ]}, o, t) /\
    main_inv t (l ++ [o]) /\
    entry_ok (Main, o) /\
    register o (hooks_of l) = hooks_of (l ++ [o]) /\
    (is_loop_entry o = true -> b = false).
Proof.
  intros H. destruct r as [v|e].
  - destruct (main_step_ret p l b v H) as (o & t & Hs & Hi & He & Hh & _ & Hl).
    eauto 10.
  - destruct (main_step_ret p l b VNone H) as (o & t & Hs & Hi & He & Hh & Hr & Hl).
    rewrite step_prog_raise. destruct p as [|c k| |]; eauto 10.
    simpl in Hs. injection Hs as <- <-.
    exists (Threw c e), (Raised e). split; [reflexivity|].
    destruct (main_inv_prefix _ _ Hi Hr) as [its Hits].
    split; [apply (has_raised l c e its Hits)|].
    split; [exact He|]. split; [|discriminate].
    rewrite hooks_of_snoc_threw. reflexivity.
Qed.

Lemma callback_state_mono b p : callback_state b p -> callback_state true p.
Proof. intros [H|[_ H]]; [left|right]; auto. Qed.

Lemma dispatch_callbacks hs e :
  Forall (fun p => p = check_q_press (VEvent e)) (dispatch hs e).
Proof.
  unfold dispatch. induction hs as [|[key cb] hs IH]; simpl; [constructor|].
  apply Forall_app. split; [|exact IH].
  destruct (ev_type e), cb; try constructor.
  destruct (String.eqb key (ev_name e)); [|constructor].
  unfold lookup_func. destruct (String.eqb _ _); repeat constructor.
Qed.

(** One step of a callback on the listener thread: the flag is [True]
    afterwards, whatever the callback was doing. *)
Lemma listener_step b p r :
  callback_state b p ->
  exists o t,
    step_prog {[ "q_pressed" := VBool b ]} r p
      = ({[ "q_pressed" := VBool true ]}, o, t) /\
    entry_ok (Listener, o) /\
    (forall hs, register o hs = hs) /\
    match t with
    | Running p' => callback_state true p'
    | _ => True
    end.
Proof.
  intros [[v ->]|[-> [[v ->]| ->]]].
  - do 2 eexists. split; [simpl; rewrite insert_singleton_eq; reflexivity|].
    repeat split. right. split; [reflexivity|]. left. eauto.
  - destruct r as [w|e]; do 2 eexists; (split; [reflexivity|]);
      repeat split; try (eexists; reflexivity).
    right. auto.
  - do 2 eexists. split; [reflexivity|]. repeat split.
Qed.

Lemma Inv_initial : Inv initial.
Proof.
  split; try reflexivity; try constructor.
Qed.

Lemma Inv_step i c : Inv c -> Inv (step i c).
Proof.
  intros [Hg Hh Hp Hl Hm]. destruct i as [r|r|e]; unfold step.
  - destruct (main_thread c) as [p| |] eqn:Ht; try (split; try rewrite Ht; assumption).
    destruct (main_step p _ (q_pressed c) r Hm) as (o & t & Hs & Hi & He & Hr & _).
    rewrite Hg, Hs.
    assert (Hq : q_pressed
      {| globals := {[ "q_pressed" := VBool (q_pressed c) ]};
         hooks := register o (hooks c); main_thread := t;
         pending := pending c; log := log c ++ [(Main, o)] |} = q_pressed c)
      by (apply q_pressed_singleton; reflexivity).
    split; unfold main_obs; cbn [globals hooks pending log main_thread];
      rewrite ?Hq, ?obs_of_snoc_same; try assumption; try reflexivity.
    + rewrite Hh. exact Hr.
    + apply Forall_app. split; [assumption|]. constructor; [assumption|constructor].
  - destruct (pending c) as [|p rest] eqn:Hpe; [split; try assumption; rewrite Hpe; assumption|].
    inversion Hp as [|? ? Hp1 Hp2]; subst.
    destruct (listener_step _ p r Hp1) as (o & t & Hs & He & Hr & Ht).
    rewrite Hg, Hs.
    assert (Hq : forall h m pe lg, q_pressed
      {| globals := {[ "q_pressed" := VBool true ]};
         hooks := h; main_thread := m; pending := pe; log := lg |} = true)
      by (intros; apply q_pressed_singleton; reflexivity).
    split; unfold main_obs; cbn [globals hooks pending log main_thread];
      rewrite ?Hq, ?Hr, ?obs_of_snoc_main_listener; try assumption; try reflexivity.
    + assert (Hrest : Forall (callback_state true) rest)
        by (eapply Forall_impl; [exact Hp2|]; intros; eapply callback_state_mono; eauto).
      destruct t; try assumption. constructor; assumption.
    + apply Forall_app. split; [assumption|]. constructor; [assumption|constructor].
  - split; unfold main_obs, q_pressed; cbn [globals hooks pending log main_thread];
      try assumption.
    apply Forall_app. split; [assumption|].
    eapply Forall_impl; [apply dispatch_callbacks|].
    intros p ->. left. eauto.
Qed.

Lemma Inv_run sched c : Inv c -> Inv (run sched c).
Proof.
  revert c. induction sched as [|i sched IH]; intros c H; [exact H|].
  rewrite run_cons. apply IH, Inv_step, H.
Qed.

Lemma Inv_reachable sched : Inv (run sched initial).
Proof. apply Inv_run, Inv_initial. Qed.

(** The shape of a step of the main thread from a reachable configuration. *)
Lemma step_main_running c r p :
  Inv c -> main_thread c = Running p ->
  exists o t,
    step (MainStep r) c =
      {| globals := globals c; hooks := register o (hooks c); main_thread := t;
         pending := pending c; log := log c ++ [(Main, o)] |} /\
    step_prog (globals c) r p = (globals c, o, t) /\
    main_inv t (main_obs c ++ [o]) /\
    (is_loop_entry o = true -> q_pressed c = false).
Proof.
  intros [Hg Hh Hp Hl Hm] Ht. rewrite Ht in Hm.
  destruct (main_step p _ (q_pressed c) r Hm) as (o & t & Hs & Hi & He & Hr & Hq).
  exists o, t. unfold step. rewrite Ht. rewrite Hg at 1 3 4. rewrite Hs.
  rewrite <- Hg. auto.
Qed.

Lemma step_main_halted c r :
  (forall p, main_thread c <> Running p) -> step (MainStep r) c = c.
Proof.
  intros H. unfold step. destruct (main_thread c); [|reflexivity..].
  exfalso. eapply H. reflexivity.
Qed.

(** The shape of a step of the listener thread. *)
Lemma step_listener_running c r p rest :
  Inv c -> pending c = p :: rest ->
  exists o t,
    step (ListenerStep r) c =
      {| globals := {[ "q_pressed" := VBool true ]}; hooks := hooks c;
         main_thread := main_thread c;
         pending := match t with Running p' => p' :: rest | _ => rest end;
         log := log c ++ [(Listener, o)] |} /\
    step_prog (globals c) r p = ({[ "q_pressed" := VBool true ]}, o, t).
Proof.
  intros [Hg Hh Hp Hl Hm] Hpe. rewrite Hpe in Hp.
  inversion Hp as [|? ? Hp1 Hp2]; subst.
  destruct (listener_step _ p r Hp1) as (o & t & Hs & He & Hr & Ht).
  exists o, t. unfold step. rewrite Hpe, Hg, Hs, Hr. auto.
Qed.

Lemma main_obs_step_listener c r : main_obs (step (ListenerStep r) c) = main_obs c.
Proof.
  unfold step. destruct (pending c) as [|p rest]; [reflexivity|].
  destruct (step_prog (globals c) r p) as [[g o] t].
  unfold main_obs. cbn [log]. apply obs_of_snoc_main_listener.
Qed.

Lemma main_thread_step_listener c r :
  main_thread (step (ListenerStep r) c) = main_thread c.
Proof.
  unfold step. destruct (pending c) as [|p rest]; [reflexivity|].
  destruct (step_prog (globals c) r p) as [[g o] t]. reflexivity.
Qed.

(** A step changes the globals in one case only: the listener thread is at
    the first statement of [check_q_press]. *)
Lemma step_globals i c :
  Inv c ->
  globals (step i c) = globals c \/
  exists r v rest,
    i = ListenerStep r /\ pending c = check_q_press v :: rest /\
    globals (step i c) = <[ "q_pressed" := VBool true ]> (globals c).
Proof.
  intros H. destruct i as [r|r|e].
  - left. destruct (main_thread c) as [p| |] eqn:Ht;
      [| rewrite step_main_halted; [reflexivity | rewrite Ht; discriminate] ..].
    destruct (step_main_running c r p H Ht) as (o & t & -> & _). reflexivity.
  - destruct (pending c) as [|p rest] eqn:Hpe.
    { left. unfold step. rewrite Hpe. reflexivity. }
    destruct (step_listener_running c r p rest H Hpe) as (o & t & Hs & Hsp).
    pose proof (inv_pending c H) as Hp. rewrite Hpe in Hp.
    inversion Hp as [|? ? [[v ->]|[Hb _]] _]; subst.
    + right. exists r, v, rest. rewrite Hs. cbn [globals].
      rewrite (inv_globals c H), insert_singleton_eq. auto.
    + left. rewrite Hs. cbn [globals]. rewrite (inv_globals c H), Hb. reflexivity.
  - left. reflexivity.
Qed.

Lemma step_keeps_flag i c : Inv c -> q_pressed c = true -> q_pressed (step i c) = true.
Proof.
  intros H Hq. destruct (step_globals i c H) as [Hg|(r & v & rest & _ & _ & Hg)];
    unfold q_pressed in *; rewrite Hg; [exact Hq|].
  rewrite lookup_insert_eq. reflexivity.
Qed.

Lemma loop_entries_snoc l o :
  loop_entries (l ++ [o]) = loop_entries l + (if is_loop_entry o then 1 else 0).
Proof.
  unfold loop_entries. rewrite List.filter_app, length_app. simpl.
  destruct (is_loop_entry o); reflexivity.
Qed.

(** The body is entered only by a step of the main thread that finds the
    flag [False]. *)
Lemma step_loop_entries i c :
  Inv c ->
  loop_entries (main_obs (step i c)) = loop_entries (main_obs c) \/
  (q_pressed c = false /\
   loop_entries (main_obs (step i c)) = S (loop_entries (main_obs c))).
Proof.
  intros H. destruct i as [r|r|e].
  - destruct (main_thread c) as [p| |] eqn:Ht;
      [| left; rewrite step_main_halted; [reflexivity | rewrite Ht; discriminate] ..].
    destruct (step_main_running c r p H Ht) as (o & t & -> & _ & _ & Hq).
    unfold main_obs. cbn [log]. rewrite obs_of_snoc_same, loop_entries_snoc.
    destruct (is_loop_entry o); [right|left]; [split; [auto|]|]; lia.
  - left. rewrite main_obs_step_listener. reflexivity.
  - left. reflexivity.
Qed.

Lemma steps_left_bound p l : main_inv (Running p) l -> steps_left p <= 14.
Proof.
  intros H. inversion H as [|its|its vs Hlen|its|its| |]; subst; clear H;
    try (cbn; lia).
  do 11 (destruct vs as [|? vs]; [cbn; lia|]). simpl in Hlen. lia.
Qed.

Lemma steps_left_step p l v g o t :
  main_inv (Running p) l ->
  step_prog {[ "q_pressed" := VBool true ]} (Ret v) p = (g, o, t) ->
  S (thread_left t) = steps_left p /\ forall e, t <> Raised e.
Proof.
  intros H. inversion H as [|its|its vs Hlen|its|its| |]; subst; clear H.
  - intros [= <- <- <-]. split; [reflexivity|discriminate].
  - unfold main_loop, step_prog. rewrite lookup_singleton_eq. cbn [truthy].
    intros [= <- <- <-]. split; [reflexivity|discriminate].
  - do 11 (destruct vs as [|? vs];
      [intros [= <- <- <-]; split; [reflexivity|discriminate]|]).
    simpl in Hlen. lia.
  - intros [= <- <- <-]. split; [reflexivity|discriminate].
  - intros [= <- <- <-]. split; [reflexivity|discriminate].
Qed.

Lemma main_returns_cons i sched :
  main_returns (i :: sched) = negb (is_raise i) && main_returns sched.
Proof. reflexivity. Qed.

(** With the flag set and every call returning, each step of the main
    thread brings it one step closer to its return. *)
Lemma run_to_exit sched : forall c,
  Inv c -> q_pressed c = true -> main_returns sched = true ->
  (forall e, main_thread c <> Raised e) ->
  thread_left (main_thread (run sched c)) <= thread_left (main_thread c) - main_steps sched /\
  (forall e, main_thread (run sched c) <> Raised e).
Proof.
  induction sched as [|i sched IH]; intros c H Hq Hret Hne.
  - change (run [] c) with c. change (main_steps []) with 0.
    split; [lia|exact Hne].
  - rewrite main_returns_cons in Hret. apply andb_prop in Hret as [Hi Hret].
    rewrite run_cons.
    pose proof (Inv_step i c H) as H'.
    pose proof (step_keeps_flag i c H Hq) as Hq'.
    destruct i as [[v|e]|r|e]; try discriminate.
    + destruct (main_thread c) as [p| |] eqn:Ht.
      * destruct (step_main_running c (Ret v) p H Ht) as (o & t & Hs & Hsp & Hi' & _).
        rewrite (inv_globals c H), Hq in Hsp.
        pose proof (inv_main c H) as Hm. rewrite Ht in Hm.
        destruct (steps_left_step p _ v _ o t Hm Hsp) as [Hlt Hne'].
        assert (Ht' : main_thread (step (MainStep (Ret v)) c) = t)
          by (rewrite Hs; reflexivity).
        destruct (IH _ H' Hq' Hret) as [IH1 IH2]; [rewrite Ht'; exact Hne'|].
        split; [|exact IH2]. rewrite Ht' in IH1.
        unfold main_steps in *. cbn [List.filter is_main_step length thread_left]. lia.
      * rewrite step_main_halted in * by (rewrite Ht; discriminate).
        destruct (IH _ H Hq Hret) as [IH1 IH2]; [rewrite Ht; exact Hne|].
        split; [|exact IH2]. rewrite Ht in IH1. simpl in *. lia.
      * exfalso. eapply Hne. reflexivity.
    + destruct (IH _ H' Hq' Hret) as [IH1 IH2].
      { rewrite main_thread_step_listener. exact Hne. }
      rewrite main_thread_step_listener in IH1. split; [exact IH1|exact IH2].
    + destruct (IH _ H' Hq' Hret) as [IH1 IH2]; [exact Hne|].
      split; [exact IH1|exact IH2].
Qed.

Lemma run_keeps_flag sched : forall c,
  Inv c -> q_pressed c = true -> q_pressed (run sched c) = true.
Proof.
  induction sched as [|i sched IH]; intros c H Hq; [exact Hq|].
  rewrite run_cons. apply IH; [apply Inv_step, H|apply step_keeps_flag; assumption].
Qed.

Lemma run_no_entry sched : forall c,
  Inv c -> q_pressed c = true ->
  loop_entries (main_obs (run sched c)) = loop_entries (main_obs c).
Proof.
  induction sched as [|i sched IH]; intros c H Hq; [reflexivity|].
  rewrite run_cons, IH by (apply Inv_step, H || (apply step_keeps_flag; assumption)).
  destruct (step_loop_entries i c H) as [->|[Hf _]]; [reflexivity|congruence].
Qed.

Lemma hooks_registered c :
  Inv c -> head (main_obs c) = Some registration ->
  hooks c = [("q", VFunc "check_q_press")].
Proof.
  intros H Hhd. rewrite (inv_hooks c H).
  destruct (main_obs c) as [|o l]; [discriminate|].
  injection Hhd as ->. reflexivity.
Qed.

Lemma key_then_listener c e r :
  Inv c -> head (main_obs c) = Some registration ->
  ev_type e = KEY_DOWN -> ev_name e = "q" ->
  q_pressed (step (ListenerStep r) (step (KeyEvent e) c)) = true.
Proof.
  intros H Hhd Hty Hname.
  pose proof (Inv_step (KeyEvent e) c H) as H'.
  assert (Hpe : exists p rest, pending (step (KeyEvent e) c) = p :: rest).
  { cbn [step pending]. rewrite (hooks_registered c H Hhd).
    unfold dispatch. cbn [flat_map snd fst]. rewrite Hty, Hname. cbn.
    destruct (pending c); cbn; eauto. }
  destruct Hpe as (p & rest & Hpe).
  destruct (step_listener_running _ r p rest H' Hpe) as (o & t & -> & _).
  apply q_pressed_singleton. reflexivity.
Qed.

(** C1. In every execution of [main] the loop body is entered only by a
    step that finds [q_pressed] False; once [q_pressed] is True it stays
    True and no further iteration starts; and, the calls still to come
    returning, the main thread leaves the loop, prints 'Exiting...' and
    returns within fourteen of its own steps.  A key-down of 'q' after
    line 46 sets the flag at the listener's next step. *)
Theorem main_exits_once_q_pressed (sched : list input) :
  let c := run sched initial in
  (forall i, loop_entries (main_obs (step i c)) <> loop_entries (main_obs c) ->
             q_pressed c = false) /\
  (q_pressed c = true ->
   forall sched',
     q_pressed (run sched' c) = true /\
     loop_entries (main_obs (run sched' c)) = loop_entries (main_obs c)) /\
  (q_pressed c = true -> (forall e, main_thread c <> Raised e) ->
   forall sched', main_returns sched' = true -> 14 <= main_steps sched' ->
     main_thread (run sched' c) = Returned /\
     exists its, main_obs (run sched' c) = full_run its) /\
  (head (main_obs c) = Some registration ->
   forall e r, ev_type e = KEY_DOWN -> ev_name e = "q" ->
     q_pressed (step (ListenerStep r) (step (KeyEvent e) c)) = true).
Proof.
  intros c. pose proof (Inv_reachable sched : Inv c) as H.
  split; [|split; [|split]].
  - intros i Hne. destruct (step_loop_entries i c H) as [Heq|[Hq _]];
      [contradiction|exact Hq].
  - intros Hq sched'. split; [apply run_keeps_flag|apply run_no_entry]; assumption.
  - intros Hq Hne sched' Hret Hlen.
    destruct (run_to_exit sched' c H Hq Hret Hne) as [Hle Hne'].
    pose proof (inv_main _ (Inv_run sched' c H)) as Hm.
    assert (Hb : thread_left (main_thread c) <= 14).
    { pose proof (inv_main c H) as Hc.
      destruct (main_thread c) as [p| |]; simpl; try lia.
      eapply steps_left_bound, Hc. }
    destruct (main_thread (run sched' c)) as [p| |e] eqn:Ht.
    + exfalso. destruct p; simpl in Hle; lia.
    + split; [reflexivity|]. inversion Hm. eauto.
    + exfalso. eapply Hne'. reflexivity.
  - intros Hhd e r Hty Hname. apply key_then_listener; assumption.
Qed.

Lemma main_exits_once_q_pressed_witness :
  q_pressed (run q_during_first_iteration initial) = true /\
  loop_entries (main_obs (run q_during_first_iteration initial)) = 1 /\
  loop_entries (main_obs (run fourteen_steps (run q_during_first_iteration initial))) = 1 /\
  main_thread (run fourteen_steps (run q_during_first_iteration initial)) = Returned.
Proof.
  destruct (main_exits_once_q_pressed q_during_first_iteration) as (_ & HB & HC & _).
  assert (Hq : q_pressed (run q_during_first_iteration initial) = true)
    by (vm_compute; reflexivity).
  split; [exact Hq|]. split; [vm_compute; reflexivity|].
  split.
  - rewrite (proj2 (HB Hq fourteen_steps)). vm_compute. reflexivity.
  - apply HC.
    + exact Hq.
    + intros e He. vm_compute in He. discriminate He.
    + vm_compute. reflexivity.
    + vm_compute. lia.
Defined.

Lemma run_answers_cons r rs c :
  run (answers (r :: rs)) c = run (answers rs) (step (MainStep r) c).
Proof. reflexivity. Qed.

Lemma run_answers_halted rs c :
  (forall p, main_thread c <> Running p) -> run (answers rs) c = c.
Proof.
  intros H. induction rs as [|r rs IH]; [reflexivity|].
  rewrite run_answers_cons, step_main_halted; assumption.
Qed.

(** A body made of calls only runs the same way over any globals and
    leaves them as they are. *)
Lemma only_calls_frame rs : forall p g g' hs pe l,
  only_calls p ->
  run (answers rs) {| globals := g; hooks := hs; main_thread := Running p;
                      pending := pe; log := l |} =
  with_globals g
    (run (answers rs) {| globals := g'; hooks := hs; main_thread := Running p;
                         pending := pe; log := l |}).
Proof.
  induction rs as [|r rs IH]; intros p g g' hs pe l Hp; [reflexivity|].
  rewrite !run_answers_cons.
  destruct Hp as [|c k Hk].
  - cbn [step main_thread step_prog globals hooks pending log].
    rewrite !run_answers_halted by discriminate. reflexivity.
  - destruct r as [v|e]; cbn [step main_thread step_prog globals hooks pending log].
    + apply IH, Hk.
    + rewrite !run_answers_halted by discriminate. reflexivity.
Qed.

Lemma set_status_available_only_calls : only_calls set_status_available.
Proof. repeat (constructor; intros). Qed.

Lemma run_returns_cons v vs c :
  run (answers (map Ret (v :: vs))) c
  = run (answers (map Ret vs)) (step (MainStep (Ret v)) c).
Proof. reflexivity. Qed.

Lemma Forall_prefix {A} (P : A -> Prop) (l l' : list A) :
  l `prefix_of` l' -> Forall P l' -> Forall P l.
Proof. intros [k ->] H. apply Forall_app in H. tauto. Qed.

(** C2. A call of [set_status_available] makes, in this order, the calls
    press 'win', sleep 1, typewrite 'Teams', sleep 1, press 'enter',
    sleep 2, FindWindow, and then returns: it never moves the mouse,
    clicks, focuses a window or presses 'down'. *)
Theorem set_status_available_only_opens_the_application
    (g : gmap string value) (rs : list response) (vs : list value) :
  calls_made (main_obs (run (answers rs) (calling set_status_available g)))
    `prefix_of` set_status_available_calls /\
  Forall (fun c => status_interaction c = false)
    (calls_made (main_obs (run (answers rs) (calling set_status_available g)))) /\
  main_obs (run (answers (map Ret vs)) (calling set_status_available g))
    = take (length vs) (map Called set_status_available_calls ++ [Returns]).
Proof.
  assert (Hp : calls_made (main_obs (run (answers rs) (calling set_status_available g)))
                 `prefix_of` set_status_available_calls).
  { do 8 (destruct rs as [|[?|?] rs];
      [ eexists; simpl; reflexivity
      | rewrite run_answers_cons
      | rewrite run_answers_cons, run_answers_halted by (simpl; discriminate);
        eexists; simpl; reflexivity ]).
    rewrite run_answers_halted by (simpl; discriminate).
    eexists; simpl; reflexivity. }
  split; [exact Hp|]. split.
  - eapply Forall_prefix; [exact Hp|]. repeat constructor.
  - do 8 (destruct vs as [|? vs]; [reflexivity | rewrite run_returns_cons]).
    rewrite run_answers_halted by (simpl; discriminate).
    rewrite take_ge by (simpl; lia). reflexivity.
Qed.

(** C10. [set_status_available] neither reads nor writes the globals: it
    leaves them as they were and runs the same way over any others; the
    value [FindWindow] returns changes nothing; when its calls return it
    returns None. *)
Theorem set_status_available_leaves_state
    (g g' : gmap string value) (rs : list response) (vs : list value) :
  8 <= length vs ->
  globals (run (answers rs) (calling set_status_available g)) = g /\
  main_thread (run (answers rs) (calling set_status_available g))
    = main_thread (run (answers rs) (calling set_status_available g')) /\
  log (run (answers rs) (calling set_status_available g))
    = log (run (answers rs) (calling set_status_available g')) /\
  run (answers (map Ret vs)) (calling set_status_available g)
    = {| globals := g; hooks := []; main_thread := Returned; pending := [];
         log := map (pair Main) (map Called set_status_available_calls ++ [Returns]) |}.
Proof.
  intros Hlen. unfold calling.
  rewrite (only_calls_frame rs _ g g') by apply set_status_available_only_calls.
  split; [reflexivity|]. split; [reflexivity|]. split; [reflexivity|].
  do 8 (destruct vs as [|? vs]; [simpl in Hlen; lia | rewrite run_returns_cons]).
  rewrite run_answers_halted by (simpl; discriminate).
  reflexivity.
Qed.

Lemma set_status_available_leaves_state_witness :
  8 <= length eight_returns /\
  globals (run (answers (map Ret eight_returns))
             (calling set_status_available initial_globals)) = initial_globals /\
  main_thread (run (answers (map Ret eight_returns))
                 (calling set_status_available initial_globals)) = Returned.
Proof.
  assert (H : 8 <= length eight_returns) by (simpl; lia).
  destruct (set_status_available_leaves_state initial_globals initial_globals
              (map Ret eight_returns) eight_returns H) as (Hg & _ & _ & Hr).
  split; [exact H|]. split; [exact Hg|]. rewrite Hr. reflexivity.
Defined.

Lemma check_q_press_globals v g r rs :
  globals (run (answers (r :: rs)) (calling (check_q_press v) g))
  = <[ "q_pressed" := VBool true ]> g.
Proof.
  rewrite run_answers_cons.
  destruct rs as [|[w|e] rs]; [reflexivity| |];
    rewrite run_answers_cons.
  - destruct rs as [|r' rs]; [reflexivity|].
    rewrite run_answers_cons, run_answers_halted by (simpl; discriminate).
    reflexivity.
  - rewrite run_answers_halted by (simpl; discriminate). reflexivity.
Qed.

Lemma stores_in_log c t x v :
  Inv c -> In (t, Stored x v) (log c) ->
  t = Listener /\ x = "q_pressed" /\ v = VBool true.
Proof.
  intros H Hin. pose proof (inv_log c H) as Hl.
  rewrite Forall_forall in Hl. apply list_elem_of_In, Hl in Hin.
  destruct t; simpl in Hin; [contradiction|]. tauto.
Qed.

(** C6. Every invocation of [check_q_press], whatever its argument, sets the
    global [q_pressed] to True; and in the running script no step but the
    first statement of [check_q_press] on the listener thread changes a
    global: the main thread only reads. *)
Theorem check_q_press_is_the_only_writer
    (v : value) (g : gmap string value) (r : response) (rs : list response)
    (sched : list input) (i : input) :
  globals (run (answers (r :: rs)) (calling (check_q_press v) g))
    = <[ "q_pressed" := VBool true ]> g /\
  (forall r', globals (step (MainStep r') (run sched initial))
              = globals (run sched initial)) /\
  (globals (step i (run sched initial)) = globals (run sched initial) \/
   exists r' v' rest,
     i = ListenerStep r' /\
     pending (run sched initial) = check_q_press v' :: rest /\
     globals (step i (run sched initial))
       = <[ "q_pressed" := VBool true ]> (globals (run sched initial))) /\
  (forall t x w, In (t, Stored x w) (log (run sched initial)) ->
                 t = Listener /\ x = "q_pressed" /\ w = VBool true).
Proof.
  pose proof (Inv_reachable sched) as H.
  split; [apply check_q_press_globals|]. split; [|split].
  - intros r'. destruct (step_globals (MainStep r') _ H) as [Hg|(? & ? & ? & Hi & _)];
      [exact Hg|discriminate Hi].
  - apply step_globals, H.
  - intros t x w. apply stores_in_log, H.
Qed.

Lemma check_q_press_is_the_only_writer_witness :
  exists v rest,
    pending (run q_after_registration initial) = check_q_press v :: rest /\
    globals (step (ListenerStep (Ret VNone)) (run q_after_registration initial))
      = <[ "q_pressed" := VBool true ]> (globals (run q_after_registration initial)).
Proof.
  destruct (check_q_press_is_the_only_writer VNone initial_globals (Ret VNone) []
              q_after_registration (ListenerStep (Ret VNone)))
    as (_ & _ & [Heq|(r' & v' & rest & _ & Hp & Hg)] & _).
  - exfalso. apply (f_equal (fun g : gmap string value => g !! "q_pressed")) in Heq.
    vm_compute in Heq. discriminate Heq.
  - exists v', rest. split; [exact Hp|exact Hg].
Defined.

(** C8. [q_pressed] starts False, every store the script performs writes
    True to it, and once it is True it is True in every later
    configuration. *)
Theorem q_pressed_is_monotone (sched sched' : list input) :
  q_pressed (run sched initial) = true ->
  globals initial !! "q_pressed" = Some (VBool false) /\
  (forall t x v, In (t, Stored x v) (log (run (sched ++ sched') initial)) ->
                 x = "q_pressed" /\ v = VBool true) /\
  q_pressed (run (sched ++ sched') initial) = true.
Proof.
  intros Hq. split; [reflexivity|]. split.
  - intros t x v Hin.
    apply (stores_in_log _ t x v (Inv_reachable _)) in Hin. tauto.
  - rewrite run_app. apply run_keeps_flag; [apply Inv_reachable|exact Hq].
Qed.

Lemma q_pressed_is_monotone_witness :
  q_pressed (run q_during_first_iteration initial) = true /\
  q_pressed (run (q_during_first_iteration ++ fourteen_steps) initial) = true.
Proof.
  assert (Hq : q_pressed (run q_during_first_iteration initial) = true)
    by (vm_compute; reflexivity).
  split; [exact Hq|].
  exact (proj2 (proj2 (q_pressed_is_monotone q_during_first_iteration fourteen_steps Hq))).
Defined.

(** C5. In every configuration the script reaches, the globals consist of
    the one boolean [q_pressed]; every step logged is a store of True to
    that flag by the callback, a test of it by the loop, a return, or one of
    the script's calls to keyboard and mouse simulation, sleep, window
    lookup, the clock, hook registration and [print]. *)
Theorem q_pressed_is_the_only_state (sched : list input) :
  globals (run sched initial)
    = {[ "q_pressed" := VBool (q_pressed (run sched initial)) ]} /\
  Forall entry_ok (log (run sched initial)).
Proof.
  pose proof (Inv_reachable sched) as H.
  split; [apply (inv_globals _ H)|apply (inv_log _ H)].
Qed.

Lemma run_main_halted sched : forall c,
  (forall p, main_thread c <> Running p) ->
  main_thread (run sched c) = main_thread c /\ main_obs (run sched c) = main_obs c.
Proof.
  induction sched as [|i sched IH]; intros c H; [split; reflexivity|].
  rewrite run_cons. destruct i as [r|r|e].
  - rewrite step_main_halted by exact H. apply IH, H.
  - destruct (IH (step (ListenerStep r) c)) as [-> ->].
    + rewrite main_thread_step_listener. exact H.
    + rewrite main_thread_step_listener, main_obs_step_listener. split; reflexivity.
  - apply (IH (step (KeyEvent e) c)). exact H.
Qed.

Lemma main_raise sched c k e sched' :
  main_thread (run sched initial) = Running (Do c k) ->
  main_thread (run (sched ++ MainStep (Raise e) :: sched') initial) = Raised e /\
  main_obs (run (sched ++ MainStep (Raise e) :: sched') initial)
    = main_obs (run sched initial) ++ [Threw c e] /\
  main_call c /\
  exists its, (main_obs (run sched initial) ++ [Called c]) `prefix_of` full_run its.
Proof.
  intros Ht. pose proof (Inv_reachable sched) as H.
  rewrite run_app, run_cons.
  destruct (step_main_running _ (Raise e) _ H Ht) as (o & t & Hs & Hsp & Hm & _).
  simpl in Hsp. injection Hsp as <- <-.
  destruct (run_main_halted sched' (step (MainStep (Raise e)) (run sched initial)))
    as [-> ->]; [rewrite Hs; discriminate|].
  pose proof (inv_log _ (Inv_step (MainStep (Raise e)) _ H)) as Hl.
  rewrite Hs in *. unfold main_obs. cbn [main_thread log] in *.
  rewrite obs_of_snoc_same.
  split; [reflexivity|]. split; [reflexivity|]. split.
  - apply Forall_app in Hl as [_ Hl]. inversion Hl as [|? ? Hc _]. exact Hc.
  - inversion Hm as [| | | | | |l c' e' its Hp]; subst.
    match goal with
    | Heq : _ ++ [Threw _ _] = _ ++ [Threw _ _] |- _ =>
        apply app_inj_tail in Heq as [-> [= ->]]
    end.
    eauto.
Qed.

(** C7. No function of the script handles an exception or repeats a call.
    When one of the seven calls of [set_status_available] raises, the
    routine ends by that exception having made the calls up to the failed
    one and no other; when the [print] of [check_q_press] raises, the
    callback ends by that exception after its store; and when any call of
    [main], those of [set_status_available] within it included, raises, the
    main thread ends by that exception for good, the failed call, the next
    one of the normal run, being the last thing it logs. *)
Theorem exceptions_propagate_unhandled
    (g : gmap string value) (v : value) (vs : list value) (r : response)
    (e : exn) (rs : list response) (sched sched' : list input)
    (c : call) (k : value -> prog) :
  length vs < 7 ->
  main_thread (run sched initial) = Running (Do c k) ->
  (main_thread (run (answers (map Ret vs ++ Raise e :: rs))
                  (calling set_status_available g)) = Raised e /\
   exists failed,
     set_status_available_calls !! length vs = Some failed /\
     main_obs (run (answers (map Ret vs ++ Raise e :: rs))
                 (calling set_status_available g))
       = map Called (take (length vs) set_status_available_calls)
         ++ [Threw failed e]) /\
  (main_thread (run (answers (r :: Raise e :: rs))
                  (calling (check_q_press v) g)) = Raised e /\
   main_obs (run (answers (r :: Raise e :: rs)) (calling (check_q_press v) g))
     = [ Stored "q_pressed" (VBool true);
         Threw (print [v; VStr "q pressed. Exiting, wait for a while..."]) e ]) /\
  (main_thread (run (sched ++ MainStep (Raise e) :: sched') initial) = Raised e /\
   main_obs (run (sched ++ MainStep (Raise e) :: sched') initial)
     = main_obs (run sched initial) ++ [Threw c e] /\
   main_call c /\
   exists its, (main_obs (run sched initial) ++ [Called c]) `prefix_of` full_run its).
Proof.
  intros Hlen Ht. split; [|split].
  - do 7 (destruct vs as [|? vs];
      [ cbn [map app]; rewrite !run_answers_cons,
          run_answers_halted by (simpl; discriminate);
        split; [reflexivity|]; eexists; split; reflexivity |]).
    simpl in Hlen. lia.
  - rewrite !run_answers_cons, run_answers_halted by (simpl; discriminate).
    split; reflexivity.
  - apply (main_raise sched c k e sched' Ht).
Qed.

Lemma exceptions_propagate_unhandled_witness :
  main_thread (run (answers (map Ret six_returns ++ [Raise os_error]))
                 (calling set_status_available initial_globals)) = Raised os_error /\
  main_obs (run (five_steps ++ MainStep (Raise fail_safe) :: fourteen_steps) initial)
    = main_obs (run five_steps initial) ++ [Threw (pyautogui_press "win") fail_safe] /\
  main_obs (run ([] ++ MainStep (Raise os_error) :: fourteen_steps) initial)
    = [Threw (keyboard_on_press_key "q" (VFunc "check_q_press")) os_error].
Proof.
  assert (Hlen : length six_returns < 7) by (simpl; lia).
  split; [|split].
  - refine (proj1 (proj1 (exceptions_propagate_unhandled initial_globals VNone
                            six_returns (Ret VNone) os_error [] five_steps []
                            (pyautogui_press "win") _ Hlen _))).
    vm_compute. reflexivity.
  - refine (proj1 (proj2 (proj2 (proj2 (exceptions_propagate_unhandled
                            initial_globals VNone six_returns (Ret VNone) fail_safe []
                            five_steps fourteen_steps
                            (pyautogui_press "win") _ Hlen _))))).
    vm_compute. reflexivity.
  - refine (proj1 (proj2 (proj2 (proj2 (exceptions_propagate_unhandled
                            initial_globals VNone six_returns (Ret VNone) os_error []
                            [] fourteen_steps
                            (keyboard_on_press_key "q" (VFunc "check_q_press")) _
                            Hlen _))))).
    vm_compute. reflexivity.
Defined.

(** C9, as stated, fails: called with a key-down of 'q' and with a key-down
    of 'a', [check_q_press] logs different steps, because it prints its
    argument. *)
Lemma check_q_press_prints_its_event :
  main_obs (run two_steps (calling (check_q_press (VEvent q_event)) initial_globals))
  <> main_obs (run two_steps (calling (check_q_press (VEvent a_event)) initial_globals)).
Proof. intros H. vm_compute in H. discriminate H. Qed.

(** C9, amended. [check_q_press] never branches on its argument: for any
    two arguments and the same answers of the environment, the two runs
    leave the same globals, stand the same way and log the same steps up to
    the first argument of [print], which is the argument itself; and any
    argument sets [q_pressed] to True. *)
Theorem check_q_press_ignores_its_event_but_prints_it
    (v1 v2 : value) (g : gmap string value) (r : response) (rs : list response) :
  globals (run (answers rs) (calling (check_q_press v1) g))
    = globals (run (answers rs) (calling (check_q_press v2) g)) /\
  outcome_of (main_thread (run (answers rs) (calling (check_q_press v1) g)))
    = outcome_of (main_thread (run (answers rs) (calling (check_q_press v2) g))) /\
  map without_first_arg (main_obs (run (answers rs) (calling (check_q_press v1) g)))
    = map without_first_arg (main_obs (run (answers rs) (calling (check_q_press v2) g))) /\
  globals (run (answers (r :: rs)) (calling (check_q_press v1) g))
    = <[ "q_pressed" := VBool true ]> g.
Proof.
  split; [|split; [|split]]; [ | | |apply check_q_press_globals].
  all: destruct rs as [|r1 rs]; [reflexivity|]; rewrite !run_answers_cons.
  all: destruct rs as [|[w|e] rs]; [reflexivity| |]; rewrite !run_answers_cons.
  all: try (rewrite !run_answers_halted by (simpl; discriminate); reflexivity).
  all: destruct rs as [|r3 rs]; [reflexivity|]; rewrite !run_answers_cons.
  all: rewrite !run_answers_halted by (simpl; discriminate); reflexivity.
Qed.

Lemma main_obs_length sched : forall c p,
  main_thread (run sched c) = Running p ->
  length (main_obs (run sched c)) = length (main_obs c) + main_steps sched.
Proof.
  induction sched as [|i sched IH]; intros c p Hp.
  - change (main_steps []) with 0. change (run [] c) with c. lia.
  - rewrite run_cons in *. rewrite (IH _ _ Hp).
    destruct i as [r|r|e].
    + destruct (main_thread c) as [q| |] eqn:Ht.
      * unfold step. rewrite Ht.
        destruct (step_prog (globals c) r q) as [[g o] t].
        unfold main_obs, main_steps. cbn [log List.filter is_main_step length].
        rewrite obs_of_snoc_same, length_app. simpl. lia.
      * exfalso. rewrite step_main_halted in Hp by (rewrite Ht; discriminate).
        destruct (run_main_halted sched c) as [Hh _]; [rewrite Ht; discriminate|].
        congruence.
      * exfalso. rewrite step_main_halted in Hp by (rewrite Ht; discriminate).
        destruct (run_main_halted sched c) as [Hh _]; [rewrite Ht; discriminate|].
        congruence.
    + rewrite main_obs_step_listener. unfold main_steps. simpl. lia.
    + unfold main_steps. simpl. reflexivity.
Qed.

Lemma main_io_snoc sched i : forall c,
  main_io (sched ++ [i]) c = main_io sched c ++ io_of_step i (run sched c).
Proof.
  induction sched as [|j sched IH]; intros c; simpl.
  - apply app_nil_r.
  - rewrite IH, app_assoc. reflexivity.
Qed.

Lemma calls_made_snoc l o : calls_made (l ++ [o]) = calls_made l ++ calls_made [o].
Proof. unfold calls_made. apply omap_app. Qed.

Lemma step_calls_made i c :
  calls_made (main_obs (step i c))
  = calls_made (main_obs c) ++ map fst (io_of_step i c).
Proof.
  destruct i as [r|r|e]; unfold io_of_step.
  - unfold step. destruct (main_thread c) as [p| |];
      try (symmetry; apply app_nil_r).
    destruct p as [|call k|x v k|x body k]; cbn [step_prog].
    + unfold main_obs. cbn [log]. rewrite obs_of_snoc_same, calls_made_snoc. reflexivity.
    + destruct r; unfold main_obs; cbn [log];
        rewrite obs_of_snoc_same, calls_made_snoc; reflexivity.
    + unfold main_obs. cbn [log]. rewrite obs_of_snoc_same, calls_made_snoc. reflexivity.
    + destruct (globals c !! x) as [v|]; [destruct (truthy v)|];
        unfold main_obs; cbn [log];
        rewrite obs_of_snoc_same, calls_made_snoc; reflexivity.
  - rewrite main_obs_step_listener. symmetry. apply app_nil_r.
  - symmetry. apply app_nil_r.
Qed.

Lemma calls_made_main_io sched : forall c,
  calls_made (main_obs (run sched c))
  = calls_made (main_obs c) ++ map fst (main_io sched c).
Proof.
  induction sched as [|i sched IH]; intros c.
  - symmetry. apply app_nil_r.
  - rewrite run_cons, IH, step_calls_made. cbn [main_io].
    rewrite map_app, app_assoc. reflexivity.
Qed.

Lemma time_flows_snoc io c r :
  time_flows io ->
  match c with
  | strftime dt fmt =>
      fmt = "%H:%M" /\ exists l0, io = l0 ++ [(datetime_now, Ret dt)]
  | print args =>
      args = [VStr "Exiting..."] \/
      exists l0 now t,
        io = l0 ++ [(datetime_now, Ret now); (strftime now "%H:%M", Ret t)] /\
        args = [t; VStr "- activating status."]
  | _ => True
  end ->
  time_flows (io ++ [(c, r)]).
Proof.
  intros Hio Hc l c' r' l' Heq.
  destruct l' as [|x l' _] using rev_ind.
  - apply app_inj_tail in Heq as [<- [= <- <-]]. exact Hc.
  - rewrite app_comm_cons, app_assoc in Heq.
    apply app_inj_tail in Heq as [Heq _]. exact (Hio _ _ _ _ Heq).
Qed.

(** One step of the main thread keeps the answers in line with where the
    thread is, and the time printed equal to the time read. *)
Lemma io_step p io g r :
  io_inv (Running p) io -> time_flows io ->
  io_inv (step_prog g r p).2
    (io ++ match p with Do c _ => [(c, r)] | _ => [] end) /\
  time_flows (io ++ match p with Do c _ => [(c, r)] | _ => [] end).
Proof.
  intros H Hio.
  inversion H as [t io0 Hh|io0|io0|pre vs Hlen|io0|io0]; subst; clear H.
  - exfalso. exact (Hh p eq_refl).
  - split; [|apply time_flows_snoc; [exact Hio|exact I]].
    destruct r; simpl; [apply io_at_line_48|apply io_halted; discriminate].
  - unfold main_loop at 1 2 3. rewrite app_nil_r. split; [|exact Hio].
    unfold step_prog. destruct (g !! "q_pressed") as [v|]; simpl;
      [|apply io_halted; discriminate].
    destruct (truthy v); simpl; [apply io_at_line_54|].
    pose proof (io_in_body io []) as Hb. rewrite app_nil_r in Hb.
    apply Hb. simpl. lia.
  - do 10 (destruct vs as [|? vs];
      [ split;
        [ destruct r as [w|e]; [|apply io_halted; simpl; discriminate];
          rewrite <- app_assoc;
          match goal with
          | |- io_inv _ (_ ++ answered ?l _ ++ _) =>
              apply (io_in_body pre (l ++ [w])); simpl; lia
          end
        | apply time_flows_snoc; [exact Hio|];
          cbn;
          first [ exact I
                | split; [reflexivity|]; eexists; reflexivity
                | right; do 3 eexists; split; reflexivity ] ] |]).
    destruct vs as [|? vs]; [|simpl in Hlen; lia].
    split.
    + destruct r; simpl; [apply io_at_line_48|apply io_halted; discriminate].
    + apply time_flows_snoc; [exact Hio|exact I].
  - split.
    + destruct r; simpl; [apply io_at_return|apply io_halted; discriminate].
    + apply time_flows_snoc; [exact Hio|]. left. reflexivity.
  - rewrite app_nil_r. split; [simpl; apply io_halted; discriminate|exact Hio].
Qed.

Lemma main_io_reachable sched :
  io_inv (main_thread (run sched initial)) (main_io sched initial) /\
  time_flows (main_io sched initial).
Proof.
  induction sched as [|i sched [IHp IHt]] using rev_ind.
  - split; [apply io_at_line_46|]. intros [|x l] c r l' Heq; discriminate Heq.
  - rewrite run_snoc, main_io_snoc.
    set (c := run sched initial) in *.
    destruct i as [r|r|e].
    + destruct (main_thread c) as [p| |] eqn:Ht.
      * unfold io_of_step, step. rewrite Ht.
        destruct (io_step p _ (globals c) r IHp IHt) as [Hp' Ht'].
        destruct (step_prog (globals c) r p) as [[g o] t].
        split; [exact Hp'|exact Ht'].
      * rewrite step_main_halted by (rewrite Ht; discriminate).
        unfold io_of_step. rewrite Ht, app_nil_r. auto.
      * rewrite step_main_halted by (rewrite Ht; discriminate).
        unfold io_of_step. rewrite Ht, app_nil_r. auto.
    + rewrite main_thread_step_listener. unfold io_of_step.
      rewrite app_nil_r. auto.
    + unfold io_of_step. rewrite app_nil_r. auto.
Qed.

(** C3. The main thread's steps are, in this order: the registration of
    [check_q_press] on 'q'; then, for each iteration, the loop test, the
    reading and printing of the time, the calls of [set_status_available]
    and the sleep of 300 seconds; then the exit.  A run cut short is a
    prefix of such a sequence, its last call having raised if the thread
    ended by an exception; a run that returned is the whole sequence; a
    thread still running has logged one step for each step it was given.
    The time printed in an iteration is the time read in it: [strftime]
    formats what [datetime.now] returned, and [print] gets what [strftime]
    returned. *)
Theorem main_registers_then_loops (sched : list input) :
  ((exists its, main_obs (run sched initial) `prefix_of` full_run its) \/
   (exists l c e its,
      main_thread (run sched initial) = Raised e /\
      main_obs (run sched initial) = l ++ [Threw c e] /\
      (l ++ [Called c]) `prefix_of` full_run its)) /\
  (main_thread (run sched initial) = Returned ->
   exists its, main_obs (run sched initial) = full_run its) /\
  (forall p, main_thread (run sched initial) = Running p ->
             length (main_obs (run sched initial)) = main_steps sched) /\
  map fst (main_io sched initial) = calls_made (main_obs (run sched initial)) /\
  time_flows (main_io sched initial).
Proof.
  pose proof (inv_main _ (Inv_reachable sched)) as Hm.
  split; [|split; [|split; [|split]]].
  - destruct (main_thread (run sched initial)) as [p| |e] eqn:Ht.
    + left. eapply main_inv_prefix; [exact Hm|discriminate].
    + left. eapply main_inv_prefix; [exact Hm|discriminate].
    + right. inversion Hm as [| | | | | |l c e' its Hp]; subst. eauto 10.
  - intros Ht. rewrite Ht in Hm. inversion Hm. eauto.
  - intros p Hp. apply (main_obs_length sched initial p Hp).
  - rewrite (calls_made_main_io sched initial). reflexivity.
  - apply main_io_reachable.
Qed.

Lemma main_registers_then_loops_witness :
  main_thread (run (thirteen_steps ++ q_during_first_iteration ++ fourteen_steps) initial)
    = Returned /\
  (exists its,
    main_obs (run (thirteen_steps ++ q_during_first_iteration ++ fourteen_steps) initial)
    = full_run its) /\
  time_flows (main_io (thirteen_steps ++ q_during_first_iteration ++ fourteen_steps)
                initial).
Proof.
  assert (H : main_thread
                (run (thirteen_steps ++ q_during_first_iteration ++ fourteen_steps) initial)
              = Returned) by (vm_compute; reflexivity).
  destruct (main_registers_then_loops
              (thirteen_steps ++ q_during_first_iteration ++ fourteen_steps))
    as (_ & Hret & _ & _ & Hflow).
  split; [exact H|]. split; [exact (Hret H)|exact Hflow].
Defined.

Lemma loop_test_position p l g r g' x b t :
  main_inv (Running p) l ->
  step_prog g r p = (g', LoopTest x b, t) ->
  exists its, l = registration :: iterations its.
Proof.
  intros H. inversion H as [|its|its vs Hlen|its|its| |]; subst; clear H.
  - destruct r; discriminate.
  - eauto.
  - intros Hs. exfalso.
    assert (Hret : forall v, step_prog g (Ret v)
                     (seq (advance vs loop_body) main_loop) <> (g', LoopTest x b, t)).
    { intros v. clear Hs.
      do 11 (destruct vs as [|? vs]; [discriminate|]). simpl in Hlen. lia. }
    destruct r as [v|e]; [exact (Hret v Hs)|].
    apply (Hret VNone). revert Hs.
    destruct (seq (advance vs loop_body) main_loop); try discriminate; exact id.
  - destruct r; discriminate.
  - discriminate.
Qed.

Lemma sleeps_since_test_app l1 l2 :
  sleeps_since_test (l1 ++ l2) =
  foldl (fun acc o =>
    match o with
    | LoopTest _ _ => []
    | Called (time_sleep secs) => acc ++ [secs]
    | _ => acc
    end) (sleeps_since_test l1) l2.
Proof. unfold sleeps_since_test. apply foldl_app. Qed.

Lemma loop_entries_iterations its :
  loop_entries (registration :: iterations its) = length its.
Proof.
  induction its as [|[now t] its IH] using rev_ind; [reflexivity|].
  rewrite iterations_snoc, app_comm_cons.
  unfold loop_entries in *. rewrite List.filter_app, !length_app, IH.
  reflexivity.
Qed.

(** C4, as stated, fails: when the main thread comes back to the loop test
    after its first iteration, it has asked for 304 seconds of sleep since
    the previous test, not 300. *)
Lemma poll_delay_is_not_300_seconds :
  main_obs (step (MainStep (Ret VNone)) (run thirteen_steps initial))
    = main_obs (run thirteen_steps initial) ++ [LoopTest "q_pressed" true] /\
  0 < loop_entries (main_obs (run thirteen_steps initial)) /\
  total (sleeps_since_test (main_obs (run thirteen_steps initial))) <> 300%Z.
Proof.
  split; [vm_compute; reflexivity|]. split; [vm_compute; lia|].
  vm_compute. discriminate.
Qed.

(** C4, amended. Whenever the main thread tests [q_pressed] again after an
    iteration, the sleeps it asked for since the previous test are those of
    1, 1 and 2 seconds in [set_status_available] followed by the fixed one
    of 300 seconds, 304 seconds in all. *)
Theorem poll_delay_is_304_seconds (sched : list input) (r : response) (b : bool) :
  main_obs (step (MainStep r) (run sched initial))
    = main_obs (run sched initial) ++ [LoopTest "q_pressed" b] ->
  0 < loop_entries (main_obs (run sched initial)) ->
  sleeps_since_test (main_obs (run sched initial)) = [1; 1; 2; 300]%Z /\
  total (sleeps_since_test (main_obs (run sched initial))) = 304%Z.
Proof.
  intros Hstep Hent. pose proof (Inv_reachable sched) as H.
  assert (Hl : exists its, main_obs (run sched initial) = registration :: iterations its).
  { destruct (main_thread (run sched initial)) as [p| |e] eqn:Ht.
    - destruct (step_main_running _ r p H Ht) as (o & t & Hs & Hsp & _).
      rewrite Hs in Hstep. unfold main_obs in Hstep. cbn [log] in Hstep.
      rewrite obs_of_snoc_same in Hstep.
      apply app_inj_tail in Hstep as [_ ->].
      pose proof (inv_main _ H) as Hm. rewrite Ht in Hm.
      eapply loop_test_position; eauto.
    - rewrite step_main_halted in Hstep by (rewrite Ht; discriminate).
      apply (f_equal length) in Hstep. rewrite length_app in Hstep. simpl in Hstep. lia.
    - rewrite step_main_halted in Hstep by (rewrite Ht; discriminate).
      apply (f_equal length) in Hstep. rewrite length_app in Hstep. simpl in Hstep. lia. }
  destruct Hl as [its Hl]. rewrite Hl in *.
  rewrite loop_entries_iterations in Hent.
  destruct its as [|[now t] its _] using rev_ind; [simpl in Hent; lia|].
  rewrite iterations_snoc, app_comm_cons, sleeps_since_test_app.
  split; reflexivity.
Qed.

Lemma poll_delay_is_304_seconds_witness :
  total (sleeps_since_test (main_obs (run thirteen_steps initial))) = 304%Z.
Proof.
  refine (proj2 (poll_delay_is_304_seconds thirteen_steps (Ret VNone) true _ _)).
  - vm_compute. reflexivity.
  - vm_compute. lia.
Defined.

(** ** Leaving the loop needs the flag *)

Lemma q_pressed_step_main c r :
  Inv c -> q_pressed (step (MainStep r) c) = q_pressed c.
Proof.
  intros H. unfold q_pressed.
  destruct (step_globals (MainStep r) c H) as [->|(? & ? & ? & Hi & _)];
    [reflexivity|discriminate Hi].
Qed.

Lemma loop_exit_test g r p g' x t :
  step_prog g r p = (g', LoopTest x false, t) ->
  exists v, g !! x = Some v /\ truthy v = true.
Proof.
  destruct p as [|c k|y w k|y body k]; simpl; try discriminate.
  - destruct r; discriminate.
  - destruct (g !! y) as [v|] eqn:Hv; [|discriminate].
    destruct (truthy v) eqn:Htr; [|discriminate].
    intros [= _ <- _]. eauto.
Qed.

Lemma exiting_position p l g r g' t :
  main_inv (Running p) l ->
  step_prog g r p = (g', Called (print [VStr "Exiting..."]), t) ->
  In (LoopTest "q_pressed" false) l.
Proof.
  intros H. inversion H as [|its|its vs Hlen|its|its| |]; subst; clear H.
  - destruct r; discriminate.
  - unfold main_loop, step_prog. destruct (g !! "q_pressed") as [v|]; [|discriminate].
    destruct (truthy v); discriminate.
  - do 11 (destruct vs as [|? vs]; [destruct r; discriminate|]).
    simpl in Hlen. lia.
  - intros _. right. apply in_or_app. right. left. reflexivity.
  - discriminate.
Qed.

Lemma exit_test_needs_flag sched :
  In (LoopTest "q_pressed" false) (main_obs (run sched initial)) ->
  q_pressed (run sched initial) = true.
Proof.
  induction sched as [|i sched IH] using rev_ind; [intros []|].
  rewrite run_snoc. pose proof (Inv_reachable sched) as H.
  set (c := run sched initial) in *. intros Hin.
  destruct i as [r|r|e].
  - rewrite q_pressed_step_main by exact H.
    destruct (main_thread c) as [p| |] eqn:Ht;
      [| rewrite step_main_halted in Hin by (rewrite Ht; discriminate); auto ..].
    destruct (step_main_running c r p H Ht) as (o & t & Hs & Hsp & _).
    rewrite Hs in Hin. unfold main_obs in Hin. cbn [log] in Hin.
    rewrite obs_of_snoc_same in Hin. apply in_app_or in Hin as [Hin|[->|[]]].
    + apply IH, Hin.
    + destruct (loop_exit_test _ _ _ _ _ _ Hsp) as (v & Hv & Htr).
      unfold q_pressed. rewrite Hv. exact Htr.
  - rewrite main_obs_step_listener in Hin. apply step_keeps_flag; auto.
  - apply step_keeps_flag; auto.
Qed.

Lemma exiting_needs_exit_test sched :
  In (Called (print [VStr "Exiting..."])) (main_obs (run sched initial)) ->
  In (LoopTest "q_pressed" false) (main_obs (run sched initial)).
Proof.
  induction sched as [|i sched IH] using rev_ind; [intros []|].
  rewrite run_snoc. pose proof (Inv_reachable sched) as H.
  set (c := run sched initial) in *.
  destruct i as [r|r|e].
  - destruct (main_thread c) as [p| |] eqn:Ht;
      [| rewrite step_main_halted by (rewrite Ht; discriminate); auto ..].
    destruct (step_main_running c r p H Ht) as (o & t & Hs & Hsp & _).
    rewrite Hs. unfold main_obs. cbn [log]. rewrite obs_of_snoc_same.
    intros Hin. apply in_or_app. left.
    apply in_app_or in Hin as [Hin|[->|[]]]; [apply IH, Hin|].
    pose proof (inv_main c H) as Hm. rewrite Ht in Hm.
    eapply exiting_position; eauto.
  - rewrite main_obs_step_listener. exact IH.
  - exact IH.
Qed.

Lemma log_step_grows i c : exists l, log (step i c) = log c ++ l.
Proof.
  destruct i as [r|r|e]; unfold step.
  - destruct (main_thread c) as [p| |]; try (exists []; symmetry; apply app_nil_r).
    destruct (step_prog (globals c) r p) as [[g o] t]. eexists. reflexivity.
  - destruct (pending c) as [|p rest]; [exists []; symmetry; apply app_nil_r|].
    destruct (step_prog (globals c) r p) as [[g o] t]. eexists. reflexivity.
  - exists []. symmetry. apply app_nil_r.
Qed.

Lemma flag_needs_store sched :
  q_pressed (run sched initial) = true ->
  In (Listener, Stored "q_pressed" (VBool true)) (log (run sched initial)).
Proof.
  induction sched as [|i sched IH] using rev_ind; [discriminate|].
  rewrite run_snoc. pose proof (Inv_reachable sched) as H.
  set (c := run sched initial) in *. intros Hq.
  destruct (q_pressed c) eqn:Hc.
  - destruct (log_step_grows i c) as [l ->]. apply in_or_app. left. auto.
  - destruct (step_globals i c H) as [Hg|(r & v & rest & -> & Hp & _)].
    + unfold q_pressed in Hq, Hc. rewrite Hg in Hq. congruence.
    + unfold step. rewrite Hp. cbn. apply in_or_app. right. left. reflexivity.
Qed.

(** X2. The main thread leaves the loop only on the flag, and the flag is
    set only by the callback: whenever the loop test has failed, 'Exiting...'
    has been printed or [main] has returned, [q_pressed] is True and the
    listener thread has run the store of [check_q_press] before. *)
Theorem main_exits_only_after_check_q_press (sched : list input) :
  In (LoopTest "q_pressed" false) (main_obs (run sched initial)) \/
  In (Called (print [VStr "Exiting..."])) (main_obs (run sched initial)) \/
  main_thread (run sched initial) = Returned ->
  q_pressed (run sched initial) = true /\
  In (Listener, Stored "q_pressed" (VBool true)) (log (run sched initial)).
Proof.
  intros Hexit.
  assert (Hin : In (LoopTest "q_pressed" false) (main_obs (run sched initial))).
  { destruct Hexit as [Hin|[Hin|Ht]]; [exact Hin| |].
    - apply exiting_needs_exit_test, Hin.
    - pose proof (inv_main _ (Inv_reachable sched)) as Hm.
      rewrite Ht in Hm. inversion Hm as [| | | | |its|].
      unfold full_run, exit_steps. right. apply in_or_app.
      right. left. reflexivity. }
  apply exit_test_needs_flag in Hin. split; [exact Hin|].
  apply flag_needs_store, Hin.
Qed.

Lemma main_exits_only_after_check_q_press_witness :
  In (Listener, Stored "q_pressed" (VBool true))
     (log (run (q_during_first_iteration ++ fourteen_steps) initial)).
Proof.
  refine (proj2 (main_exits_only_after_check_q_press
                   (q_during_first_iteration ++ fourteen_steps) _)).
  right. right. vm_compute. reflexivity.
Defined.

(** ** How long the exit takes *)

Lemma slept_snoc l o : slept (l ++ [o]) = (slept l + sleep_of o)%Z.
Proof.
  unfold slept. induction l as [|x l IH]; simpl; [lia|].
  rewrite IH. lia.
Qed.

Lemma sleep_left_bound p l :
  main_inv (Running p) l -> (0 <= sleep_left p <= 304)%Z.
Proof.
  intros H. inversion H as [|its|its vs Hlen|its|its| |]; subst; clear H;
    try (cbn; lia).
  do 11 (destruct vs as [|? vs]; [cbn; lia|]). simpl in Hlen. lia.
Qed.

Lemma sleep_left_step p l r g o t :
  main_inv (Running p) l ->
  step_prog {[ "q_pressed" := VBool true ]} r p = (g, o, t) ->
  (sleep_of o + thread_sleep_left t <= sleep_left p)%Z.
Proof.
  intros H. pose proof (sleep_left_bound p l H) as Hb. revert Hb.
  inversion H as [|its|its vs Hlen|its|its| |]; subst; clear H.
  - destruct r; intros Hb [= <- <- <-]; cbn in *; lia.
  - unfold main_loop, step_prog. rewrite lookup_singleton_eq. cbn [truthy].
    intros Hb [= <- <- <-]. cbn. lia.
  - do 11 (destruct vs as [|? vs];
      [destruct r; intros Hb [= <- <- <-]; cbn in *; lia|]).
    simpl in Hlen. lia.
  - destruct r; intros Hb [= <- <- <-]; cbn in *; lia.
  - intros Hb [= <- <- <-]. cbn. lia.
Qed.

Lemma thread_sleep_left_bound c :
  Inv c -> (0 <= thread_sleep_left (main_thread c) <= 304)%Z.
Proof.
  intros H. pose proof (inv_main c H) as Hm.
  destruct (main_thread c) as [p| |]; simpl; try lia.
  eapply sleep_left_bound, Hm.
Qed.

Lemma run_sleep_left sched : forall c,
  Inv c -> q_pressed c = true ->
  (slept (main_obs (run sched c)) + thread_sleep_left (main_thread (run sched c))
   <= slept (main_obs c) + thread_sleep_left (main_thread c))%Z.
Proof.
  induction sched as [|i sched IH]; intros c H Hq; [change (run [] c) with c; lia|].
  rewrite run_cons.
  etransitivity; [apply IH; [apply Inv_step, H|apply step_keeps_flag; assumption]|].
  destruct i as [r|r|e].
  - destruct (main_thread c) as [p| |] eqn:Ht;
      [| rewrite step_main_halted by (rewrite Ht; discriminate); rewrite Ht; lia ..].
    destruct (step_main_running c r p H Ht) as (o & t & Hs & Hsp & _).
    rewrite (inv_globals c H), Hq in Hsp.
    pose proof (inv_main c H) as Hm. rewrite Ht in Hm.
    pose proof (sleep_left_step p _ r _ o t Hm Hsp) as Hle.
    rewrite Hs. unfold main_obs. cbn [log main_thread].
    rewrite obs_of_snoc_same, slept_snoc. cbn [thread_sleep_left]. lia.
  - rewrite main_obs_step_listener, main_thread_step_listener. lia.
  - cbn [step]. unfold main_obs. cbn [log main_thread]. lia.
Qed.

(** X3. Once [q_pressed] is True, the main thread sleeps at most 304 more
    seconds in all, the sleeps left in the iteration under way, before it
    leaves the loop, whatever the schedule and the answers. *)
Theorem exit_within_304_seconds_of_sleep (sched sched' : list input) :
  q_pressed (run sched initial) = true ->
  (slept (main_obs (run (sched ++ sched') initial))
   <= slept (main_obs (run sched initial)) + 304)%Z.
Proof.
  intros Hq. rewrite run_app.
  pose proof (Inv_reachable sched) as H.
  pose proof (run_sleep_left sched' _ H Hq) as Hle.
  pose proof (thread_sleep_left_bound _ H) as Hb.
  pose proof (thread_sleep_left_bound _ (Inv_run sched' _ H)) as Hb'.
  lia.
Qed.

Lemma exit_within_304_seconds_of_sleep_witness :
  (slept (main_obs (run (q_during_first_iteration ++ fourteen_steps) initial))
   <= slept (main_obs (run q_during_first_iteration initial)) + 304)%Z.
Proof.
  apply exit_within_304_seconds_of_sleep. vm_compute. reflexivity.
Defined.

(** ** Counting iterations *)

Lemma length_iterations its : length (iterations its) = 12 * length its.
Proof.
  induction its as [|[now t] its IH]; [reflexivity|].
  unfold iterations in *. cbn [flat_map]. rewrite length_app, IH. simpl. lia.
Qed.

Lemma loop_entries_app l1 l2 :
  loop_entries (l1 ++ l2) = loop_entries l1 + loop_entries l2.
Proof. unfold loop_entries. rewrite List.filter_app, length_app. reflexivity. Qed.

Lemma body_under_way vs :
  length vs < 11 ->
  loop_entries (LoopTest "q_pressed" true :: calls_of vs loop_body) = 1 /\
  length (LoopTest "q_pressed" true :: calls_of vs loop_body) = S (length vs).
Proof.
  intros H. do 11 (destruct vs as [|? vs]; [split; reflexivity|]).
  simpl in H. lia.
Qed.

(** X4. While [q_pressed] is False and the main thread runs, the loop body
    has been entered once at the thread's second step and once more every
    twelve steps after it: after n steps of the main thread, (n + 10) / 12
    times. *)
Theorem one_iteration_every_twelve_steps (sched : list input) (p : prog) :
  q_pressed (run sched initial) = false ->
  main_thread (run sched initial) = Running p ->
  loop_entries (main_obs (run sched initial)) = (main_steps sched + 10) / 12.
Proof.
  intros Hq Ht.
  pose proof (main_obs_length sched initial p Ht) as Hlen.
  change (length (main_obs initial)) with 0 in Hlen.
  pose proof (inv_main _ (Inv_reachable sched)) as Hm. rewrite Ht in Hm.
  assert (Hno : ~ In (LoopTest "q_pressed" false) (main_obs (run sched initial))).
  { intros Hin. apply exit_test_needs_flag in Hin. congruence. }
  inversion Hm as [Hp Hl|its Hp Hl|its vs Hvs Hp Hl|its Hp Hl|its Hp Hl| |];
    rewrite <- Hl in *; clear Hl.
  - simpl in Hlen. rewrite <- Hlen. reflexivity.
  - rewrite loop_entries_iterations.
    cbn [length] in Hlen. rewrite length_iterations in Hlen.
    apply (Nat.div_unique _ 12 _ 11); lia.
  - destruct (body_under_way vs Hvs) as [He Hl].
    rewrite app_comm_cons, loop_entries_app, loop_entries_iterations, He.
    rewrite app_comm_cons, length_app in Hlen. cbn [length] in Hlen, Hl.
    rewrite length_iterations in Hlen.
    apply (Nat.div_unique _ 12 _ (length vs)); lia.
  - exfalso. apply Hno. right. apply in_or_app. right. left. reflexivity.
  - exfalso. apply Hno. right. apply in_or_app. right. left. reflexivity.
Qed.

Lemma one_iteration_every_twelve_steps_witness :
  loop_entries (main_obs (run (thirteen_steps ++ two_steps) initial)) = 2.
Proof.
  refine (one_iteration_every_twelve_steps (thirteen_steps ++ two_steps) _ _ _).
  - vm_compute. reflexivity.
  - vm_compute. reflexivity.
Defined.

(** ** A call that fails inside the routine *)

(** X5. When one of the seven calls of [set_status_available] raises, the
    routine ends by that exception at once: the calls before it and the
    failed one have been made, none of the later ones is, and the globals
    are as they were. *)
Theorem set_status_available_stops_at_failed_call
    (g : gmap string value) (vs : list value) (e : exn) (rs : list response) :
  length vs < 7 ->
  main_thread (run (answers (map Ret vs ++ Raise e :: rs))
                 (calling set_status_available g)) = Raised e /\
  calls_made (main_obs (run (answers (map Ret vs ++ Raise e :: rs))
                          (calling set_status_available g)))
    = take (S (length vs)) set_status_available_calls /\
  globals (run (answers (map Ret vs ++ Raise e :: rs))
             (calling set_status_available g)) = g.
Proof.
  intros Hlen.
  do 7 (destruct vs as [|? vs];
    [ cbn [map app]; rewrite !run_answers_cons,
        run_answers_halted by (simpl; discriminate);
      repeat split; reflexivity |]).
  simpl in Hlen. lia.
Qed.

Lemma set_status_available_stops_at_failed_call_witness :
  calls_made (main_obs (run (answers (map Ret three_returns ++ [Raise fail_safe]))
                          (calling set_status_available initial_globals)))
  = [pyautogui_press "win"; time_sleep 1; pyautogui_typewrite "Teams"; time_sleep 1].
Proof.
  refine (proj1 (proj2 (set_status_available_stops_at_failed_call
                          initial_globals three_returns fail_safe [] _))).
  simpl. lia.
Defined.
